(** * Synapse load balancer: a shallow embedding of [load_balancer.py]

    The module keeps two globals, the list object [healthy_servers] and the
    [itertools.cycle] object [server_iterator] built over that very list.
    Three pieces of code touch them: [lifespan] (startup probe pass),
    [health_check_task] (the periodic probe loop) and [proxy] (one inbound
    request).  Each is embedded as a function on an explicit [state]; the
    network is an oracle handed to the function. *)

From Stdlib Require Import ZArith NArith String Ascii.
From stdpp Require Import base gmap sets list strings.

Local Open Scope string_scope.
Local Open Scope nat_scope.

(** ** Configuration *)

Module Config.

Definition BACKEND_SERVERS : list string :=
  [ "http://localhost:8000";
    "http://localhost:8001";
    "http://localhost:8002" ].

(** In seconds. *)
Definition HEALTH_CHECK_INTERVAL : N := 10.

(** [timeout=2] of the probe and [ClientTimeout(total=120.0)] of the
    proxied request, in seconds. *)
Definition PROBE_TIMEOUT : N := 2.
Definition PROXY_TIMEOUT : N := 120.

End Config.

(** Time is counted in milliseconds. *)
Definition seconds (s : N) : N := (s * 1000)%N.

(** ** The cyclic iterator

    [itertools.cycle(healthy_servers)] holds a list iterator over the shared
    list object (a position into it, dropped once it ran off the end), its
    own list [saved] of the items it has handed out on the first pass, and
    the position [index] in [saved] used from the second pass on.  The list
    iterator does not copy the list: it reads the list object as it is when
    [next] is called, so the store is an argument of [cycle_next]. *)

Record cycle := Cycle {
  it : option nat;
  saved : list string;
  index : nat
}.

(** [cycle(healthy_servers)]: nothing is read from the list yet. *)
Definition cycle_new : cycle :=
  {| it := Some 0; saved := []; index := 0 |}.

(** [next] on the list iterator at position [i] of the list [store]. *)
Definition listiter_next (store : list string) (i : nat) : option (string * nat) :=
  match store !! i with
  | Some x => Some (x, S i)
  | None => None
  end.

(** The second phase of [next(cycle)]: replay [saved].  [None] stands for
    StopIteration (raised when [saved] is empty). *)
Definition cycle_replay (c : cycle) : option string * cycle :=
  if decide (length (saved c) = 0) then (None, c)
  else
    match saved c !! index c with
    | Some x =>
        let i := S (index c) in
        (Some x,
         {| it := it c; saved := saved c;
            index := if decide (length (saved c) ≤ i) then 0 else i |})
    | None => (None, c)
    end.

(** [next(server_iterator)] against the current content of the list. *)
Definition cycle_next (store : list string) (c : cycle) : option string * cycle :=
  match it c with
  | Some i =>
      match listiter_next store i with
      | Some (x, i') =>
          (Some x, {| it := Some i'; saved := saved c ++ [x]; index := index c |})
      | None =>
          cycle_replay {| it := None; saved := saved c; index := index c |}
      end
  | None => cycle_replay c
  end.

(** ** Module state *)

Record state := State {
  healthy_servers : list string;
  server_iterator : cycle
}.

(** The two module-level assignments. *)
Definition module_state : state :=
  {| healthy_servers := []; server_iterator := cycle_new |}.

(** ** Probing

    What a server would answer to a GET and after how long; the two
    exception classes are the ones the code catches. *)

Inductive http_outcome :=
  | Status (code : Z)
  | ClientError (msg : string)
  | TimeoutError (msg : string).

Record reply := Reply {
  outcome : http_outcome;
  elapsed : N            (* milliseconds *)
}.

(** The network during one probe pass: url to reply. *)
Definition network := string → reply.

(** [session.get(url, timeout=2)]: an answer that takes longer than the
    timeout is cut off at the timeout and raises TimeoutError. *)
Definition session_get (net : network) (url : string) (timeout : N) : reply :=
  let r := net url in
  if decide (seconds timeout < elapsed r)%N
  then {| outcome := TimeoutError ""; elapsed := seconds timeout |}
  else r.

Definition probe (net : network) (server : string) : reply :=
  session_get net (server ++ "/health") Config.PROBE_TIMEOUT.

Definition is_200 (o : http_outcome) : bool :=
  match o with
  | Status code => bool_decide (code = 200%Z)
  | _ => false
  end.

(** The [for server in BACKEND_SERVERS] loop, shared by [lifespan] and
    [health_check_task]: returns the list built by the [append]s and the
    clock after the last probe. *)
Fixpoint probe_pass (net : network) (servers : list string) (now : N)
  : list string * N :=
  match servers with
  | [] => ([], now)
  | server :: rest =>
      let r := probe net server in
      let '(found, t) := probe_pass net rest (now + elapsed r)%N in
      (if is_200 (outcome r) then server :: found else found, t)
  end.

Section Balancer.

(** The configured backend list; [Config.BACKEND_SERVERS] in the
    repository. *)
Variable BACKEND_SERVERS : list string.

(** Lines 61-72 of [lifespan]. *)
Definition lifespan (net : network) (st : state) : state :=
  let initially_healthy := (probe_pass net BACKEND_SERVERS 0).1 in
  {| healthy_servers := healthy_servers st ++ initially_healthy;
     server_iterator := cycle_new |}.

(** Lines 44-48: [set(currently_healthy) != set(healthy_servers)], then
    clear, extend and a new cycle over the same list object. *)
Definition publish (currently_healthy : list string) (st : state) : state :=
  if decide (list_to_set (C := gset string) currently_healthy
             ≠ list_to_set (healthy_servers st))
  then {| healthy_servers := [] ++ currently_healthy;
          server_iterator := cycle_new |}
  else st.

(** One iteration of the [while True] body of [health_check_task],
    started at time [now]: the state after line 48 and the time at which
    the next iteration starts (after the sleep of line 50). *)
Definition health_check_iteration (net : network) (st : state) (now : N)
  : state * N :=
  let '(currently_healthy, t) := probe_pass net BACKEND_SERVERS now in
  (publish currently_healthy st,
   (t + seconds Config.HEALTH_CHECK_INTERVAL)%N).

Definition health_check_cycle (net : network) (st : state) : state :=
  (health_check_iteration net st 0).1.

(** The loop itself never ends; [n] iterations of it, with the network
    of each iteration, collecting the start time of every iteration. *)
Fixpoint health_check_task (n : nat) (nets : nat → network) (k : nat)
    (st : state) (now : N) : state * list N :=
  match n with
  | O => (st, [])
  | S n' =>
      let '(st', next) := health_check_iteration (nets k) st now in
      let '(st'', starts) := health_check_task n' nets (S k) st' next in
      (st'', now :: starts)
  end.

End Balancer.

(** ** Headers

    [request.headers] is Starlette's [Headers] and [response.headers] is
    aiohttp's [CIMultiDictProxy]; [items()] of either enumerates one pair
    per header line, repeated names included, in order.  The comprehensions
    of [proxy] build a Python [dict] from them: one entry per distinct key,
    in order of first insertion, holding the value assigned last. *)

Abbreviation items := (list (string * string)) (only parsing).
Abbreviation dict := (list (string * string)) (only parsing).

(** [d[k] = v] *)
Fixpoint dict_setitem (k v : string) (d : dict) : dict :=
  match d with
  | [] => [(k, v)]
  | (k', v') :: rest =>
      if decide (k' = k) then (k', v) :: rest
      else (k', v') :: dict_setitem k v rest
  end.

(** [{k: v for k, v in its if keep k}] *)
Definition dict_comprehension (keep : string → bool) (its : items) : dict :=
  foldl (λ d kv, if keep kv.1 then dict_setitem kv.1 kv.2 d else d) [] its.

(** [str.lower] on the ASCII range, which is where header names live:
    bytes above 127 are left alone. *)
Definition lower_ascii (a : ascii) : ascii :=
  let n := N_of_ascii a in
  if ((65 <=? n) && (n <=? 90))%N then ascii_of_N (n + 32) else a.

Fixpoint lower (s : string) : string :=
  match s with
  | EmptyString => EmptyString
  | String a rest => String (lower_ascii a) (lower rest)
  end.

(** [k.lower() != 'host'] *)
Definition not_host (k : string) : bool :=
  negb (bool_decide (lower k = "host")).

(** [k.lower() not in ("transfer-encoding", "connection")] *)
Definition not_hop_by_hop (k : string) : bool :=
  negb (bool_decide (lower k ∈ ["transfer-encoding"; "connection"])).

(** ** The proxied request *)

Definition bytes := list Byte.byte.

Record Request := {
  method : string;
  headers : items;
  query_params : items;
  body : bytes
}.

(** The arguments of [session.request]. *)
Record upstream_request := {
  u_method : string;
  u_url : string;
  u_headers : dict;
  u_params : items;
  u_data : bytes;
  u_timeout : N          (* seconds *)
}.

Inductive upstream_outcome :=
  | Responded (status : Z) (response_headers : items) (content : bytes)
  | RaisedClientError (e : string)
  | RaisedTimeoutError (e : string).

Record upstream_reply := {
  answer : upstream_outcome;
  took : N               (* milliseconds, up to the last byte of the body *)
}.

Definition upstream := upstream_request → upstream_reply.

(** [session.request(..., timeout=ClientTimeout(total=120.0))] followed by
    [response.read()]: the total budget covers both. *)
Definition session_request (up : upstream) (r : upstream_request)
  : upstream_outcome :=
  let a := up r in
  if decide (seconds (u_timeout r) < took a)%N then RaisedTimeoutError ""
  else answer a.

Inductive proxy_result :=
  | Response (content : bytes) (status_code : Z) (response_headers : dict)
  | HTTPException (status_code : Z) (detail : string)
  | StopIteration.

(** What one call of [proxy] does: what the caller gets, the calls made on
    the upstream session, and the module state it leaves. *)
Record proxy_run := {
  result : proxy_result;
  upstream_calls : list upstream_request;
  final : state
}.

(** [next(server_iterator)] on the module state. *)
Definition select (st : state) : option string * state :=
  let '(r, c) := cycle_next (healthy_servers st) (server_iterator st) in
  (r, {| healthy_servers := healthy_servers st; server_iterator := c |}).

(** Lines 97-110: the upstream request for the selected server. *)
Definition build_upstream_request (target_server : string) (request : Request)
    (path : string) : upstream_request :=
  {| u_method := method request;
     u_url := target_server ++ "/" ++ path;
     u_headers := dict_comprehension not_host (headers request);
     u_params := query_params request;
     u_data := body request;
     u_timeout := Config.PROXY_TIMEOUT |}.

Definition proxy (up : upstream) (request : Request) (path : string)
    (st : state) : proxy_run :=
  if decide (healthy_servers st = []) then
    {| result := HTTPException 503 "No healthy backend servers available.";
       upstream_calls := [];
       final := st |}
  else
    match select st with
    | (None, st') =>
        {| result := StopIteration; upstream_calls := []; final := st' |}
    | (Some target_server, st') =>
        let r := build_upstream_request target_server request path in
        {| result :=
             match session_request up r with
             | Responded status response_headers content =>
                 Response content status
                   (dict_comprehension not_hop_by_hop response_headers)
             | RaisedClientError e | RaisedTimeoutError e =>
                 HTTPException 502 ("Bad Gateway or connection error: " ++ e)
             end;
           upstream_calls := [r];
           final := st' |}
    end.

(** ** Reachable states

    Between two [await]s a task runs alone.  [proxy] touches the globals
    only in lines 91-94 and [health_check_task] only in lines 44-48, and
    neither stretch contains an [await], so every run is an interleaving of
    whole publications and whole selections. *)

Section Reachable.

Variable BACKEND_SERVERS : list string.

Inductive step : state → state → Prop :=
  | step_health_check net st :
      step st (health_check_cycle BACKEND_SERVERS net st)
  | step_proxy up request path st :
      step st (final (proxy up request path st)).

Inductive reachable : state → Prop :=
  | reachable_startup net :
      reachable (lifespan BACKEND_SERVERS net module_state)
  | reachable_step st st' :
      reachable st → step st st' → reachable st'.

End Reachable.

(** The iterator is in step with the list it was built over: still on its
    first pass with [saved] the part already read, or replaying a full
    copy. *)
Definition coherent (st : state) : Prop :=
  let store := healthy_servers st in
  let c := server_iterator st in
  match it c with
  | Some i => i ≤ length store ∧ saved c = take i store ∧ index c = 0
  | None =>
      saved c = store
      ∧ (index c < length store ∨ (store = [] ∧ index c = 0))
  end.

(** The position in [healthy_servers] that the next selection reads. *)
Definition cursor (st : state) : nat :=
  match it (server_iterator st) with
  | Some i => if decide (i < length (healthy_servers st)) then i else 0
  | None => index (server_iterator st)
  end.

(** [n] selections in a row. *)
Fixpoint selections (n : nat) (st : state) : list (option string) * state :=
  match n with
  | O => ([], st)
  | S n' =>
      let '(r, st') := select st in
      let '(rs, st'') := selections n' st' in
      (r :: rs, st'')
  end.

(** The outcome of the selection made after [n] earlier ones. *)
Definition nth_selection (n : nat) (st : state) : option string :=
  (select (selections n st).2).1.

(** Time spent by one pass over [servers]. *)
Definition probing_time (net : network) (servers : list string) : N :=
  foldr (λ server acc, (elapsed (probe net server) + acc)%N) 0%N servers.

(** ** Scenarios

    Concrete networks, requests and upstream servers on which the
    statements below are exercised. *)

Module Scenario.

(** Every backend answers 200 after 5 ms. *)
Definition net_all_up : network :=
  λ _, {| outcome := Status 200; elapsed := 5 |}.

(** The state in which the process starts serving. *)
Definition started : state :=
  lifespan Config.BACKEND_SERVERS net_all_up module_state.

Definition get_models : Request :=
  {| method := "GET";
     headers := [("host", "client.example"); ("user-agent", "curl/8.5.0")];
     query_params := [("verbose", "1")];
     body := [] |}.

(** A request whose [accept] field is sent on two lines. *)
Definition get_two_accepts : Request :=
  {| method := "GET";
     headers := [("host", "client.example");
                 ("accept", "text/html");
                 ("accept", "application/json")];
     query_params := [];
     body := [] |}.

(** The upstream response of the spec's relay example. *)
Definition up_created : upstream :=
  λ _, {| answer :=
            Responded 201
              [("X-Test", "1"); ("Transfer-Encoding", "chunked")]
              (list_byte_of_string "hello");
          took := 40 |}.

(** A backend that sets two cookies. *)
Definition up_two_cookies : upstream :=
  λ _, {| answer :=
            Responded 200
              [("Content-Type", "text/plain");
               ("Set-Cookie", "session=abc");
               ("Set-Cookie", "theme=dark")]
              (list_byte_of_string "ok");
          took := 40 |}.

(** A backend that refuses the connection. *)
Definition up_refused : upstream :=
  λ _, {| answer := RaisedClientError "Cannot connect to host localhost:8000";
          took := 1 |}.

End Scenario.

(** ** More on the header dictionaries *)

(** The value of the last line named [k] among [its]. *)
Definition last_value (k : string) (its : items) : option string :=
  snd <$> last (filter (λ kv, kv.1 = k) its).

#[global] Instance http_outcome_eq_dec : EqDecision http_outcome.
Proof. solve_decision. Defined.

(** ** More scenarios *)

Module Cases.

(** Only the second backend is up; the first refuses the connection and
    the third takes three seconds to answer. *)
Definition net_second_only : network :=
  λ url,
    if decide (url = "http://localhost:8001/health")
    then {| outcome := Status 200; elapsed := 7 |}
    else if decide (url = "http://localhost:8000/health")
    then {| outcome := ClientError "Connection refused"; elapsed := 1 |}
    else {| outcome := Status 200; elapsed := 3000 |}.

(** A backend that answers 500 with a body. *)
Definition up_internal_error : upstream :=
  λ _, {| answer :=
            Responded 500
              [("Content-Type", "application/json"); ("Connection", "close")]
              (list_byte_of_string "{}");
          took := 12 |}.

(** A backend that answers 200, but only after 121 seconds. *)
Definition up_slow : upstream :=
  λ _, {| answer := Responded 200 [] (list_byte_of_string "late");
          took := 121000 |}.

Definition post_chat : Request :=
  {| method := "POST";
     headers := [("Host", "client.example");
                 ("content-type", "application/json");
                 ("authorization", "Bearer t")];
     query_params := [];
     body := list_byte_of_string "{}" |}.

End Cases.

(** * The server node: [main.py]

    The tokenizer and the model come from the transformers library and are
    taken as given: a tokenizer is its vocabulary size ([len(tokenizer)],
    which decides its truth value) and its encode and decode functions, a
    model is its [generate] function.  [float] stands for Python's float;
    the handler only passes the temperature on. *)

Module Node.

Inductive load_result (A : Type) :=
  | Loaded (a : A)
  | LoadError (e : string).
Arguments Loaded {A} a.
Arguments LoadError {A} e.

Section Node.

Context {float : Type}.

Record Message := {
  role : string;
  content : string
}.

Record ChatCompletionRequest := {
  req_model : string;
  messages : list Message;
  max_tokens : option Z;
  temperature : option float
}.

Record ChatCompletionChoice := {
  choice_index : Z;
  message : Message;
  finish_reason : string
}.

Record ChatCompletionResponse := {
  id : string;
  object : string;
  created : Z;
  resp_model : string;
  choices : list ChatCompletionChoice
}.

Record Tokenizer := {
  vocab_len : N;
  encode : string → list Z;                (* tokenizer(prompt) *)
  decode : list Z → string;                (* skip_special_tokens=True *)
  eos_token_id : option Z
}.

(** [generate inputs max_new_tokens temperature pad_token_id]: the batch of
    output sequences. *)
Record Model := {
  generate : list Z → option Z → option float → option Z → list (list Z)
}.

(** The globals [model] and [tokenizer]. *)
Record globals := {
  model : option Model;
  tokenizer : option Tokenizer
}.

Definition module_globals : globals := {| model := None; tokenizer := None |}.

(** [os.environ.get("MODEL_NAME", "gpt2")] *)
Definition MODEL_NAME (environ : gmap string string) : string :=
  default "gpt2" (environ !! "MODEL_NAME").

(** Truth values: [None] is false, a module object is true, a tokenizer is
    true when its length is not zero. *)
Definition truthy_model (m : option Model) : bool :=
  match m with Some _ => true | None => false end.

Definition truthy_tokenizer (t : option Tokenizer) : bool :=
  match t with
  | Some t => negb (vocab_len t =? 0)%N
  | None => false
  end.

(** [AutoTokenizer.from_pretrained] and
    [AutoModelForCausalLM.from_pretrained(...).to(DEVICE)]. *)
Record hub := {
  tokenizer_from_pretrained : string → load_result Tokenizer;
  model_from_pretrained : string → load_result Model
}.

(** Lines 33-39 of [lifespan]: the globals it leaves and the exception it
    re-raises, if any. *)
Definition lifespan (h : hub) (name : string) (g : globals)
  : globals * option string :=
  match tokenizer_from_pretrained h name with
  | LoadError e => (g, Some e)
  | Loaded t =>
      let g1 := {| model := model g; tokenizer := Some t |} in
      match model_from_pretrained h name with
      | LoadError e => (g1, Some e)
      | Loaded m => ({| model := Some m; tokenizer := Some t |}, None)
      end
  end.

Inductive handler_result :=
  | Returned (response : ChatCompletionResponse)
  | Raised_HTTPException (status_code : Z) (detail : string)
  | Raised_IndexError.

(** [create_chat_completion]; [now] is [int(time.time())]. *)
Definition create_chat_completion (g : globals) (now : Z)
    (request : ChatCompletionRequest) : handler_result :=
  if negb (truthy_model (model g)) || negb (truthy_tokenizer (tokenizer g))
  then Raised_HTTPException 503 "Model not loaded"
  else
    match model g, tokenizer g with
    | Some m, Some t =>
        match last (messages request) with
        | None => Raised_IndexError
        | Some msg =>
            let prompt := content msg in
            let inputs := encode t prompt in
            let outputs :=
              generate m inputs (max_tokens request) (temperature request)
                (eos_token_id t) in
            match outputs !! 0 with
            | None => Raised_IndexError
            | Some out =>
                let response_text := decode t out in
                Returned
                  {| id := "chatcmpl-123";
                     object := "chat.completion";
                     created := now;
                     resp_model := req_model request;
                     choices :=
                       [ {| choice_index := 0;
                            message := {| role := "assistant";
                                          content := response_text |};
                            finish_reason := "stop" |} ] |}
            end
        end
    | _, _ => Raised_HTTPException 503 "Model not loaded"
    end.

End Node.

End Node.

(** A toy tokenizer and model to run the handler on: one token per
    character, and a model that answers with its input followed by "!".
    Temperatures are whole numbers here. *)

Module NodeCases.

Definition toy_tokenizer : Node.Tokenizer :=
  {| Node.vocab_len := 256;
     Node.encode := λ s, (λ b, Z.of_N (Byte.to_N b)) <$> list_byte_of_string s;
     Node.decode := λ l,
       string_of_list_byte
         ((λ z, default Byte.x00 (Byte.of_N (Z.to_N z))) <$> l);
     Node.eos_token_id := Some 0%Z |}.

Definition toy_model : Node.Model (float := Z) :=
  {| Node.generate := λ inputs _ _ _, [(inputs ++ [33%Z])%list] |}.

Definition toy_hub : Node.hub (float := Z) :=
  {| Node.tokenizer_from_pretrained := λ _, Node.Loaded toy_tokenizer;
     Node.model_from_pretrained := λ _, Node.Loaded toy_model |}.

Definition loaded : Node.globals (float := Z) :=
  {| Node.model := Some toy_model; Node.tokenizer := Some toy_tokenizer |}.

Definition ask (history : list Node.Message) : Node.ChatCompletionRequest :=
  {| Node.req_model := "gpt2";
     Node.messages := history;
     Node.max_tokens := Some 512%Z;
     Node.temperature := Some 1%Z |}.

Definition hi : Node.Message := {| Node.role := "user"; Node.content := "hi" |}.

Definition hi_from_system : Node.Message :=
  {| Node.role := "system"; Node.content := "hi" |}.

Definition earlier : Node.Message :=
  {| Node.role := "user"; Node.content := "what is a proxy" |}.

End NodeCases.

(** * Properties *)

(** ** The probe pass *)

Lemma is_200_Status o : is_200 o = true ↔ o = Status 200.
Proof.
  destruct o as [code| |]; simpl; [|split; discriminate..].
  rewrite bool_decide_eq_true. split; congruence.
Qed.

Lemma probe_pass_found net servers now s :
  s ∈ (probe_pass net servers now).1
  ↔ s ∈ servers ∧ outcome (probe net s) = Status 200.
Proof.
  revert now. induction servers as [|server rest IH]; intros now; simpl.
  - split; [intros H|intros [H _]]; inversion H.
  - specialize (IH (now + elapsed (probe net server))%N).
    destruct (probe_pass net rest (now + elapsed (probe net server))%N)
      as [found t]; simpl in *.
    destruct (is_200 (outcome (probe net server))) eqn:E.
    + apply is_200_Status in E.
      rewrite !elem_of_cons, IH.
      split; [intros [->|[??]]; auto | intros [[->|?] ?]; auto].
    + assert (outcome (probe net server) ≠ Status 200) as Hne.
      { intros Hs. apply is_200_Status in Hs. congruence. }
      rewrite elem_of_cons, IH.
      split; [intros [??]; auto | intros [[->|?] ?]; [done | auto]].
Qed.

Lemma probe_pass_clock net servers now :
  (probe_pass net servers now).2 = (now + probing_time net servers)%N.
Proof.
  revert now. induction servers as [|server rest IH]; intros now; simpl.
  - lia.
  - specialize (IH (now + elapsed (probe net server))%N).
    destruct (probe_pass net rest (now + elapsed (probe net server))%N)
      as [found t]; simpl in *. lia.
Qed.

(** The list found does not depend on the time the pass starts at. *)
Lemma probe_pass_found_now net servers now now' :
  (probe_pass net servers now).1 = (probe_pass net servers now').1.
Proof.
  revert now now'. induction servers as [|server rest IH]; intros now now'; simpl.
  - done.
  - specialize (IH (now + elapsed (probe net server))%N
                   (now' + elapsed (probe net server))%N).
    destruct (probe_pass net rest (now + elapsed (probe net server))%N).
    destruct (probe_pass net rest (now' + elapsed (probe net server))%N).
    simpl in IH. by rewrite IH.
Qed.

Lemma probe_pass_sublist net servers now :
  (probe_pass net servers now).1 `sublist_of` servers.
Proof.
  revert now. induction servers as [|server rest IH]; intros now; simpl.
  - constructor.
  - specialize (IH (now + elapsed (probe net server))%N).
    destruct (probe_pass net rest (now + elapsed (probe net server))%N)
      as [found t]; simpl in *.
    destruct (is_200 _); by constructor.
Qed.

(** ** Publication *)

Lemma publish_cases new st :
  (list_to_set (C := gset string) new ≠ list_to_set (healthy_servers st)
   ∧ publish new st = {| healthy_servers := new; server_iterator := cycle_new |})
  ∨ (list_to_set (C := gset string) new = list_to_set (healthy_servers st)
     ∧ publish new st = st).
Proof.
  unfold publish. case_decide as H; [left|right]; split; done.
Qed.

Lemma publish_members new st s :
  s ∈ healthy_servers (publish new st) ↔ s ∈ new.
Proof.
  destruct (publish_cases new st) as [[_ ->]|[Heq ->]]; [done|].
  rewrite <-(elem_of_list_to_set (C := gset string) s (healthy_servers st)).
  rewrite <-Heq. by rewrite elem_of_list_to_set.
Qed.

Lemma health_check_iteration_state B net st now :
  (health_check_iteration B net st now).1
  = publish (probe_pass net B 0).1 st.
Proof.
  unfold health_check_iteration.
  rewrite (probe_pass_found_now net B 0 now).
  by destruct (probe_pass net B now).
Qed.

Lemma health_check_iteration_clock B net st now :
  (health_check_iteration B net st now).2
  = (now + probing_time net B + seconds Config.HEALTH_CHECK_INTERVAL)%N.
Proof.
  unfold health_check_iteration.
  pose proof (probe_pass_clock net B now) as H.
  destruct (probe_pass net B now); simpl in *. by rewrite H.
Qed.

Lemma health_check_cycle_publish B net st :
  health_check_cycle B net st = publish (probe_pass net B 0).1 st.
Proof. apply health_check_iteration_state. Qed.

(** ** Selection *)

Lemma coherent_cycle_new l :
  coherent {| healthy_servers := l; server_iterator := cycle_new |}.
Proof. unfold coherent; simpl. split; [lia|]. by rewrite take_0. Qed.

Lemma select_healthy_servers st :
  healthy_servers (select st).2 = healthy_servers st.
Proof.
  unfold select.
  by destruct (cycle_next (healthy_servers st) (server_iterator st)).
Qed.

Lemma cursor_lt st :
  coherent st → healthy_servers st ≠ [] →
  cursor st < length (healthy_servers st).
Proof.
  destruct st as [store [i sv ix]]. unfold coherent, cursor; simpl.
  intros Hc Hne.
  assert (0 < length store) by (destruct store; [done|simpl; lia]).
  destruct i as [i|].
  - case_decide; lia.
  - destruct Hc as [_ [?|[? _]]]; [lia|done].
Qed.

Local Arguments Nat.modulo : simpl never.

(** In a coherent state [next] reads the list at the cursor, leaves a
    coherent state and moves the cursor one step round the list. *)
Lemma select_spec st :
  coherent st →
  (select st).1 = healthy_servers st !! cursor st
  ∧ coherent (select st).2
  ∧ (healthy_servers st ≠ [] →
     cursor (select st).2 = (cursor st + 1) `mod` length (healthy_servers st)).
Proof.
  destruct st as [store [i sv ix]].
  unfold coherent, cursor, select, cycle_next, listiter_next, cycle_replay; simpl.
  destruct i as [i|]; simpl.
  - intros (Hi & -> & ->).
    destruct (store !! i) as [x|] eqn:Hx; simpl.
    + apply lookup_lt_Some in Hx as Hlt.
      rewrite (decide_True (P := i < length store)) by done.
      split; [done|]. split.
      * split; [lia|]. split; [|done]. by rewrite (take_S_r _ _ x).
      * intros _. case_decide.
        -- rewrite Nat.mod_small; lia.
        -- replace (i + 1) with (length store) by lia.
           by rewrite Nat.Div0.mod_same.
    + apply lookup_ge_None in Hx.
      assert (i = length store) as -> by lia.
      rewrite firstn_all.
      rewrite (decide_False (P := length store < length store)) by lia.
      destruct store as [|y store]; simpl.
      { split; [done|]. split; [|done]. split; [done|]. by right. }
      split; [done|]. split.
      * split; [done|]. left. case_decide; lia.
      * intros _. case_decide.
        -- assert (length store = 0) as -> by lia. done.
        -- rewrite Nat.mod_small; lia.
  - intros (-> & Hix). case_decide as Hlen; simpl.
    + destruct store; [|done]. destruct Hix as [?|[_ ->]]; [simpl in *; lia|].
      split; [done|]. split; [|done]. split; [done|]. by right.
    + destruct Hix as [Hix|[-> _]]; [|done].
      destruct (lookup_lt_is_Some_2 store ix Hix) as [x Hx].
      rewrite Hx; simpl. split; [done|]. split.
      * split; [done|]. left. case_decide; lia.
      * intros _. case_decide.
        -- replace (ix + 1) with (length store) by lia.
           by rewrite Nat.Div0.mod_same.
        -- rewrite Nat.mod_small; lia.
Qed.

Lemma selections_spec n st :
  coherent st → healthy_servers st ≠ [] →
  let k := length (healthy_servers st) in
  (selections n st).1
    = (λ j, healthy_servers st !! ((cursor st + j) `mod` k)) <$> seq 0 n
  ∧ coherent (selections n st).2
  ∧ healthy_servers (selections n st).2 = healthy_servers st
  ∧ cursor (selections n st).2 = (cursor st + n) `mod` k.
Proof.
  revert st. induction n as [|n IH]; intros st Hc Hne k; simpl.
  - repeat split; try done.
    rewrite Nat.add_0_r, Nat.mod_small; [done|by apply cursor_lt].
  - destruct (select_spec st Hc) as (Hr & Hc' & Hcur).
    specialize (Hcur Hne).
    pose proof (select_healthy_servers st) as Hh.
    destruct (select st) as [r st']; simpl in *.
    assert (healthy_servers st' ≠ []) as Hne' by by rewrite Hh.
    destruct (IH st' Hc' Hne') as (Hrs & Hc'' & Hh'' & Hcur'').
    destruct (selections n st') as [rs st'']; simpl in *.
    rewrite Hh in *. fold k in Hcur, Hrs, Hcur''.
    repeat split; try done.
    + f_equal.
      * rewrite Nat.add_0_r, Nat.mod_small; [done|by apply cursor_lt].
      * rewrite Hrs, <-fmap_S_seq, <-list_fmap_compose.
        apply list_fmap_ext. intros _ j _; simpl.
        rewrite Hcur. f_equal.
        rewrite Nat.Div0.add_mod_idemp_l. f_equal. lia.
    + rewrite Hcur'', Hcur, Nat.Div0.add_mod_idemp_l. f_equal. lia.
Qed.

Lemma nth_selection_spec n st :
  coherent st → healthy_servers st ≠ [] →
  nth_selection n st
  = healthy_servers st
      !! ((cursor st + n) `mod` length (healthy_servers st)).
Proof.
  intros Hc Hne. unfold nth_selection.
  destruct (selections_spec n st Hc Hne) as (_ & Hc' & Hh & Hcur).
  destruct (select_spec _ Hc') as (-> & _). by rewrite Hh, Hcur.
Qed.

Lemma rotate_nat_add_mod base offset len :
  rotate_nat_add base offset len = (base + offset) `mod` len.
Proof.
  unfold rotate_nat_add.
  by rewrite <-Nat2Z.inj_add, <-Nat2Z.inj_mod, Nat2Z.id.
Qed.

Lemma rotate_Permutation {A} n (l : list A) : rotate n l ≡ₚ l.
Proof.
  unfold rotate. rewrite Permutation_app_comm. by rewrite take_drop.
Qed.

(** A full round from any cursor position is the list rotated to start at
    the cursor. *)
Lemma selections_round st :
  coherent st → healthy_servers st ≠ [] →
  (selections (length (healthy_servers st)) st).1
  = Some <$> rotate (cursor st) (healthy_servers st).
Proof.
  intros Hc Hne.
  destruct (selections_spec (length (healthy_servers st)) st Hc Hne)
    as (-> & _).
  assert (0 < length (healthy_servers st))
    by (destruct (healthy_servers st); [done|simpl; lia]).
  apply list_eq. intros i. rewrite !list_lookup_fmap.
  destruct (decide (i < length (healthy_servers st))) as [Hi|Hi].
  - rewrite lookup_seq_lt by done; simpl.
    rewrite lookup_rotate_r, rotate_nat_add_mod by done.
    destruct (lookup_lt_is_Some_2 (healthy_servers st)
      ((cursor st + i) `mod` length (healthy_servers st))) as [x ->]; [|done].
    apply Nat.mod_upper_bound. lia.
  - rewrite lookup_seq_ge by lia; simpl.
    rewrite (lookup_ge_None_2 (rotate _ _)); [done|].
    rewrite length_rotate. lia.
Qed.

(** ** Invariants of the reachable states *)

Lemma proxy_final up request path st :
  final (proxy up request path st) = st
  ∨ final (proxy up request path st) = (select st).2.
Proof.
  unfold proxy. case_decide; [by left|right].
  by destruct (select st) as [[target|] st'].
Qed.

Lemma step_coherent B st st' : step B st st' → coherent st → coherent st'.
Proof.
  intros [net st0|up request path st0] Hc.
  - rewrite health_check_cycle_publish.
    destruct (publish_cases (probe_pass net B 0).1 st0) as [[_ ->]|[_ ->]];
      [apply coherent_cycle_new|done].
  - destruct (proxy_final up request path st0) as [->| ->]; [done|].
    by apply select_spec.
Qed.

Lemma reachable_coherent B st : reachable B st → coherent st.
Proof.
  induction 1 as [net|st st' _ IH Hstep].
  - apply coherent_cycle_new.
  - by apply (step_coherent B st).
Qed.

Lemma step_sublist B st st' :
  step B st st' →
  healthy_servers st `sublist_of` B → healthy_servers st' `sublist_of` B.
Proof.
  intros [net st0|up request path st0] Hs.
  - rewrite health_check_cycle_publish.
    destruct (publish_cases (probe_pass net B 0).1 st0) as [[_ ->]|[_ ->]];
      [apply probe_pass_sublist|done].
  - destruct (proxy_final up request path st0) as [->| ->]; [done|].
    by rewrite select_healthy_servers.
Qed.

Lemma reachable_sublist B st :
  reachable B st → healthy_servers st `sublist_of` B.
Proof.
  induction 1 as [net|st st' _ IH Hstep].
  - apply probe_pass_sublist.
  - by apply (step_sublist B st).
Qed.

(** ** Header dictionaries *)

Lemma dict_setitem_keys k v d x :
  x ∈ (dict_setitem k v d).*1 → x = k ∨ x ∈ d.*1.
Proof.
  induction d as [|[k' v'] d IH]; simpl.
  - rewrite list_elem_of_singleton. by left.
  - case_decide; simpl; rewrite !elem_of_cons; [by right|].
    intros [->|H']; [right; by left|].
    destruct (IH H') as [->|?]; [by left|right; by right].
Qed.

Lemma dict_setitem_fresh k v d :
  k ∉ d.*1 → dict_setitem k v d = (d ++ [(k, v)])%list.
Proof.
  induction d as [|[k' v'] d IH]; simpl; [done|].
  rewrite not_elem_of_cons. intros [Hne Hd].
  rewrite decide_False by done. by rewrite IH.
Qed.

Lemma dict_comprehension_keys_from (keep : string → bool) (its : items)
    (acc : dict) (k : string) :
  k ∈ (foldl (λ (d : dict) kv, if keep kv.1 then dict_setitem kv.1 kv.2 d else d)
         acc its).*1 →
  k ∈ acc.*1 ∨ (keep k = true ∧ k ∈ its.*1).
Proof.
  revert acc. induction its as [|[k' v'] its IH]; intros acc; simpl.
  - by left.
  - intros H. apply IH in H as [H|[? ?]].
    + destruct (keep k') eqn:E; [|by left].
      apply dict_setitem_keys in H as [->|H]; [|by left].
      right. split; [done|]. by left.
    + right. split; [done|]. by right.
Qed.

(** A comprehension holds no key that its condition rejects. *)
Lemma dict_comprehension_keys (keep : string → bool) (its : items) k :
  k ∈ (dict_comprehension keep its).*1 → keep k = true ∧ k ∈ its.*1.
Proof.
  intros H. apply dict_comprehension_keys_from in H as [H|H]; [|done].
  inversion H.
Qed.

Lemma dict_comprehension_NoDup_from (keep : string → bool) (its : items)
    (acc : dict) :
  NoDup (acc.*1 ++ its.*1)%list →
  foldl (λ (d : dict) kv, if keep kv.1 then dict_setitem kv.1 kv.2 d else d)
    acc its
  = (acc ++ filter (λ kv, keep kv.1 = true) its)%list.
Proof.
  revert acc. induction its as [|[k v] its IH]; intros acc Hnd; simpl.
  - by rewrite app_nil_r.
  - simpl in Hnd. apply NoDup_app in Hnd as (Hacc & Hdisj & Hits).
    apply NoDup_cons in Hits as [Hk Hits].
    assert (k ∉ acc.*1) as Hfresh.
    { intros Hin. apply (Hdisj k Hin). by left. }
    destruct (keep k) eqn:E.
    + rewrite filter_cons_True by done.
      rewrite dict_setitem_fresh by done. rewrite IH.
      * by rewrite <-app_assoc.
      * rewrite fmap_app; simpl. rewrite <-app_assoc; simpl.
        apply NoDup_app. split; [done|]. split.
        -- intros x Hx. rewrite elem_of_cons. intros [->|Hx']; [done|].
           apply (Hdisj x Hx). by right.
        -- by apply NoDup_cons.
    + rewrite filter_cons_False by (simpl; congruence).
      apply IH. apply NoDup_app. split; [done|]. split; [|done].
      intros x Hx Hx'. apply (Hdisj x Hx). by right.
Qed.

(** When no header name occurs twice the comprehension is a plain filter:
    every pair that passes the condition is kept, in order. *)
Lemma dict_comprehension_NoDup (keep : string → bool) (its : items) :
  NoDup its.*1 →
  dict_comprehension keep its = filter (λ kv, keep kv.1 = true) its.
Proof.
  intros H. unfold dict_comprehension.
  by rewrite dict_comprehension_NoDup_from.
Qed.

(** * The claims *)

(** C1.  When the healthy list is empty at the time a request is handled,
    [proxy] answers 503 (no healthy backend), makes no call on the upstream
    session and leaves the module state as it was. *)
Theorem proxy_no_healthy_backend up request path st :
  healthy_servers st = [] →
  result (proxy up request path st)
    = HTTPException 503 "No healthy backend servers available."
  ∧ upstream_calls (proxy up request path st) = []
  ∧ final (proxy up request path st) = st.
Proof. intros H. unfold proxy. by rewrite decide_True. Qed.

Lemma proxy_no_healthy_backend_witness :
  result (proxy Scenario.up_created Scenario.get_models "v1/models" module_state)
    = HTTPException 503 "No healthy backend servers available."
  ∧ upstream_calls
      (proxy Scenario.up_created Scenario.get_models "v1/models" module_state)
    = []
  ∧ final (proxy Scenario.up_created Scenario.get_models "v1/models" module_state)
    = module_state.
Proof.
  apply (proxy_no_healthy_backend Scenario.up_created Scenario.get_models
           "v1/models" module_state).
  reflexivity.
Defined.

(** C2.  After a health-check cycle, run from any earlier state, a server is
    in the healthy list exactly when it is configured and its probe of
    [<base>/health] returned status 200 within the probe timeout; any other
    status, a timeout or a client error leaves it out.  The earlier state
    plays no part: one failing probe removes a server and one succeeding
    probe adds it. *)
Theorem health_check_membership B net st s :
  s ∈ healthy_servers (health_check_cycle B net st)
  ↔ s ∈ B
    ∧ outcome (session_get net (s ++ "/health") Config.PROBE_TIMEOUT)
      = Status 200.
Proof.
  rewrite health_check_cycle_publish, publish_members.
  apply probe_pass_found.
Qed.

(** C3.  In any reachable state over a duplicate-free configuration whose
    healthy list has [k ≥ 1] members, [k] selections in a row with no
    publication in between return every member exactly once, and the
    selection made after [n + k] others is the one made after [n]: the
    order repeats with period [k]. *)
Theorem round_robin_round B st :
  NoDup B → reachable B st → 1 ≤ length (healthy_servers st) →
  let k := length (healthy_servers st) in
  ∃ l, (selections k st).1 = Some <$> l
       ∧ l ≡ₚ healthy_servers st
       ∧ NoDup l
       ∧ ∀ n, nth_selection (n + k) st = nth_selection n st.
Proof.
  intros HB Hr Hk k.
  pose proof (reachable_coherent B st Hr) as Hc.
  assert (healthy_servers st ≠ []) as Hne.
  { intros E. rewrite E in Hk. simpl in Hk. lia. }
  exists (rotate (cursor st) (healthy_servers st)).
  split; [by apply selections_round|].
  split; [apply rotate_Permutation|].
  split.
  - rewrite rotate_Permutation.
    eapply sublist_NoDup; [done|by apply reachable_sublist].
  - intros n. rewrite !nth_selection_spec by done. fold k.
    f_equal. rewrite Nat.add_assoc.
    rewrite <-(Nat.mul_1_l k) at 1. apply Nat.Div0.mod_add.
Qed.

Lemma round_robin_round_witness :
  ∃ l, (selections 3 Scenario.started).1 = Some <$> l
       ∧ l ≡ₚ healthy_servers Scenario.started
       ∧ NoDup l
       ∧ ∀ n, nth_selection (n + 3) Scenario.started
              = nth_selection n Scenario.started.
Proof.
  apply (round_robin_round Config.BACKEND_SERVERS Scenario.started).
  - refine (bool_decide_unpack (NoDup Config.BACKEND_SERVERS) _).
    vm_compute. exact I.
  - apply reachable_startup.
  - vm_compute. lia.
Defined.

(** C7.  A health-check cycle replaces the healthy list exactly when the
    probed set differs from the current one as a set.  A replacement
    installs the probed list and a fresh iterator, whatever the two sets
    have in common: the cursor is at 0 and the next selection returns the
    first member of the new list.  With the same membership the state,
    cursor included, is left untouched. *)
Theorem health_check_replaces_iff_changed B net st :
  let new := (probe_pass net B 0).1 in
  let st' := health_check_cycle B net st in
  (list_to_set (C := gset string) new ≠ list_to_set (healthy_servers st) →
     healthy_servers st' = new
     ∧ server_iterator st' = cycle_new
     ∧ cursor st' = 0
     ∧ (select st').1 = head new)
  ∧ (list_to_set (C := gset string) new = list_to_set (healthy_servers st) →
     st' = st).
Proof.
  intros new st'. unfold st'. rewrite health_check_cycle_publish. fold new.
  destruct (publish_cases new st) as [[Hne ->]|[Heq ->]].
  - split; [intros _|done].
    split; [done|]. split; [done|]. split.
    + unfold cursor; simpl. by case_decide.
    + destruct (select_spec _ (coherent_cycle_new new)) as (-> & _).
      rewrite head_lookup. unfold cursor; simpl. by case_decide.
  - split; [done|]. by intros _.
Qed.

(** C8.  In a reachable state with a non-empty healthy list the selection
    made by [proxy] succeeds and returns a member of the healthy list as it
    is at that moment: the request is forwarded to that member and the
    StopIteration outcome does not arise. *)
Theorem selection_succeeds B up request path st :
  reachable B st → healthy_servers st ≠ [] →
  ∃ target,
    (select st).1 = Some target
    ∧ target ∈ healthy_servers st
    ∧ upstream_calls (proxy up request path st)
      = [build_upstream_request target request path]
    ∧ result (proxy up request path st) ≠ StopIteration.
Proof.
  intros Hr Hne.
  pose proof (reachable_coherent B st Hr) as Hc.
  destruct (select_spec st Hc) as (Hsel & _).
  destruct (lookup_lt_is_Some_2 (healthy_servers st) (cursor st))
    as [target Ht]; [by apply cursor_lt|].
  exists target. rewrite Hsel.
  split; [done|]. split; [by eapply list_elem_of_lookup_2|].
  unfold proxy. rewrite decide_False by done.
  destruct (select st) as [r st']; simpl in Hsel. rewrite Hsel, Ht.
  split; [done|]. simpl.
  by destruct (session_request up (build_upstream_request target request path)).
Qed.

Lemma selection_succeeds_witness :
  ∃ target,
    (select Scenario.started).1 = Some target
    ∧ target ∈ healthy_servers Scenario.started
    ∧ upstream_calls
        (proxy Scenario.up_created Scenario.get_models "v1/models"
           Scenario.started)
      = [build_upstream_request target Scenario.get_models "v1/models"]
    ∧ result
        (proxy Scenario.up_created Scenario.get_models "v1/models"
           Scenario.started)
      ≠ StopIteration.
Proof.
  apply (selection_succeeds Config.BACKEND_SERVERS Scenario.up_created
           Scenario.get_models "v1/models" Scenario.started).
  - apply reachable_startup.
  - vm_compute. discriminate.
Defined.

(** C9.  In every reachable state, so after the startup probe pass and
    after every health-check cycle, each member of the healthy list is a
    configured backend, and with an empty configuration the healthy list is
    empty. *)
Theorem healthy_subset_of_configured B st :
  reachable B st →
  (∀ s, s ∈ healthy_servers st → s ∈ B)
  ∧ (B = [] → healthy_servers st = []).
Proof.
  intros Hr. pose proof (reachable_sublist B st Hr) as Hs. split.
  - intros s. by apply sublist_subseteq.
  - intros ->. by apply sublist_nil_r.
Qed.

Lemma healthy_subset_of_configured_witness :
  (∀ s, s ∈ healthy_servers Scenario.started → s ∈ Config.BACKEND_SERVERS)
  ∧ (Config.BACKEND_SERVERS = [] → healthy_servers Scenario.started = []).
Proof.
  apply (healthy_subset_of_configured Config.BACKEND_SERVERS Scenario.started).
  apply reachable_startup.
Defined.

(** ** Relaying: what holds of the two header comprehensions *)

Lemma proxy_forwards up request path st target st' :
  healthy_servers st ≠ [] → select st = (Some target, st') →
  upstream_calls (proxy up request path st)
    = [build_upstream_request target request path]
  ∧ result (proxy up request path st)
    = match session_request up (build_upstream_request target request path) with
      | Responded status response_headers content =>
          Response content status
            (dict_comprehension not_hop_by_hop response_headers)
      | RaisedClientError e | RaisedTimeoutError e =>
          HTTPException 502 ("Bad Gateway or connection error: " ++ e)
      end.
Proof.
  intros Hne Hsel. unfold proxy. rewrite decide_False by done.
  by rewrite Hsel.
Qed.

(** Method, url, query parameters and body go upstream as they came in. *)
Lemma upstream_request_fields target request path :
  let r := build_upstream_request target request path in
  u_method r = method request
  ∧ u_url r = target ++ "/" ++ path
  ∧ u_params r = query_params request
  ∧ u_data r = body request
  ∧ u_timeout r = 120%N.
Proof. done. Qed.

(** No header named Host, in any letter case, goes upstream. *)
Lemma host_never_forwarded target request path k :
  k ∈ (u_headers (build_upstream_request target request path)).*1 →
  lower k ≠ "host".
Proof.
  intros H. apply dict_comprehension_keys in H as [H _].
  unfold not_host in H. apply negb_true_iff, bool_decide_eq_false in H. done.
Qed.

(** No Transfer-Encoding or Connection header is relayed to the client. *)
Lemma hop_by_hop_never_relayed response_headers k :
  k ∈ (dict_comprehension not_hop_by_hop response_headers).*1 →
  lower k ≠ "transfer-encoding" ∧ lower k ≠ "connection".
Proof.
  intros H. apply dict_comprehension_keys in H as [H _].
  unfold not_hop_by_hop in H. apply negb_true_iff, bool_decide_eq_false in H.
  rewrite !elem_of_cons in H. split; intros E; apply H; auto.
Qed.

(** With no header name repeated, every header but Host goes upstream and
    every header but the two hop-by-hop ones comes back, in order. *)
Lemma upstream_headers_distinct_names target request path :
  NoDup (headers request).*1 →
  u_headers (build_upstream_request target request path)
  = filter (λ kv, not_host kv.1 = true) (headers request).
Proof. apply dict_comprehension_NoDup. Qed.


(** The relay example of the spec: 201, X-Test kept, Transfer-Encoding
    dropped, body untouched. *)
Example relay_created :
  result (proxy Scenario.up_created Scenario.get_models "v1/models"
            Scenario.started)
  = Response (list_byte_of_string "hello") 201 [("X-Test", "1")].
Proof. vm_compute. reflexivity. Qed.

(** The Host example of the spec: the client's Host line is not among the
    upstream headers. *)
Example host_dropped :
  upstream_calls (proxy Scenario.up_created Scenario.get_models "v1/models"
                    Scenario.started)
  = [ {| u_method := "GET";
         u_url := "http://localhost:8000/v1/models";
         u_headers := [("user-agent", "curl/8.5.0")];
         u_params := [("verbose", "1")];
         u_data := [];
         u_timeout := 120 |} ].
Proof. vm_compute. reflexivity. Qed.

(** C4.  The upstream response carries two Set-Cookie lines; neither is a
    hop-by-hop header, yet only the second reaches the client: the
    comprehension keeps one value per name.  Status and body are relayed
    as they are. *)
Theorem repeated_response_header_lost :
  result (proxy Scenario.up_two_cookies Scenario.get_models "login"
            Scenario.started)
  = Response (list_byte_of_string "ok") 200
      [("Content-Type", "text/plain"); ("Set-Cookie", "theme=dark")].
Proof. vm_compute. reflexivity. Qed.

(** C5.  The inbound request carries its accept field on two lines; only
    the second goes upstream, for the same reason.  Method, url, query
    parameters and body are forwarded as they are and Host is dropped. *)
Theorem repeated_request_header_lost :
  upstream_calls (proxy Scenario.up_created Scenario.get_two_accepts
                    "v1/models" Scenario.started)
  = [ {| u_method := "GET";
         u_url := "http://localhost:8000/v1/models";
         u_headers := [("accept", "application/json")];
         u_params := [];
         u_data := [];
         u_timeout := 120 |} ].
Proof. vm_compute. reflexivity. Qed.

(** An answer that takes longer than the end-to-end budget counts as a
    timeout. *)
Lemma session_request_timeout up r :
  (seconds (u_timeout r) < took (up r))%N →
  session_request up r = RaisedTimeoutError "".
Proof. intros H. unfold session_request. by rewrite decide_True. Qed.

(** C6.  When the upstream call of a proxied request fails with a client
    error or a timeout, [proxy] answers 502 with the diagnostic text built
    from the error, and that call is the only one made: no second backend
    is tried. *)
Theorem upstream_failure_is_502 up request path st r e :
  r ∈ upstream_calls (proxy up request path st) →
  session_request up r = RaisedClientError e
  ∨ session_request up r = RaisedTimeoutError e →
  result (proxy up request path st)
    = HTTPException 502 ("Bad Gateway or connection error: " ++ e)
  ∧ upstream_calls (proxy up request path st) = [r].
Proof.
  unfold proxy. case_decide; simpl; [by intros ?%elem_of_nil|].
  destruct (select st) as [[target|] st'];
    simpl; [|by intros ?%elem_of_nil].
  intros ->%list_elem_of_singleton [-> | ->]; done.
Qed.

Lemma upstream_failure_is_502_witness :
  result (proxy Scenario.up_refused Scenario.get_models "v1/models"
            Scenario.started)
    = HTTPException 502
        ("Bad Gateway or connection error: "
           ++ "Cannot connect to host localhost:8000")
  ∧ upstream_calls (proxy Scenario.up_refused Scenario.get_models "v1/models"
                      Scenario.started)
    = [build_upstream_request "http://localhost:8000" Scenario.get_models
         "v1/models"].
Proof.
  apply (upstream_failure_is_502 Scenario.up_refused Scenario.get_models
           "v1/models" Scenario.started).
  - vm_compute. left.
  - left. vm_compute. reflexivity.
Defined.

(** ** The cadence of the health-check loop *)

(** The loop stays within the reachable states. *)
Lemma health_check_task_reachable B n nets k st now :
  reachable B st → reachable B (health_check_task B n nets k st now).1.
Proof.
  revert k st now. induction n as [|n IH]; intros k st now Hr; [done|].
  simpl.
  pose proof (health_check_iteration_state B (nets k) st now) as Hst.
  destruct (health_check_iteration B (nets k) st now) as [st' next].
  specialize (IH (S k) st' next).
  destruct (health_check_task B n nets (S k) st' next) as [st'' starts].
  simpl in *. apply IH. subst st'.
  rewrite <-health_check_cycle_publish.
  eapply reachable_step; [done|constructor].
Qed.

Lemma health_check_task_starts B n nets k st now :
  (health_check_task B (S n) nets k st now).2
  = now :: (health_check_task B n nets (S k)
              (health_check_iteration B (nets k) st now).1
              (health_check_iteration B (nets k) st now).2).2.
Proof.
  simpl. destruct (health_check_iteration B (nets k) st now) as [st' next].
  simpl. by destruct (health_check_task B n nets (S k) st' next).
Qed.

Lemma health_check_task_first B n nets k st now t :
  (health_check_task B n nets k st now).2 !! 0 = Some t → t = now.
Proof.
  destruct n as [|n]; [done|].
  rewrite health_check_task_starts. simpl. congruence.
Qed.

(** With every probe answered in 5 ms the second iteration starts 10015 ms
    after the first, not 10000 ms after it: the sleep of line 50 begins
    once the probes of the iteration are over.  (Counterexample to C10.) *)
Lemma cycle_start_gap_exceeds_interval :
  let starts :=
    (health_check_task Config.BACKEND_SERVERS 2 (λ _, Scenario.net_all_up) 0
       Scenario.started 0).2 in
  starts !! 0 = Some 0%N
  ∧ starts !! 1 = Some 10015%N
  ∧ (10015 ≠ 0 + seconds Config.HEALTH_CHECK_INTERVAL)%N.
Proof. vm_compute. repeat split; discriminate. Qed.

(** C10, amended.  The start of an iteration of the health-check loop and
    the start of the next one are apart by the time the first spent probing
    plus the configured interval: the interval runs from the end of an
    iteration, not from its start. *)
Theorem cycle_start_gap B n nets k st now i t t' :
  (health_check_task B n nets k st now).2 !! i = Some t →
  (health_check_task B n nets k st now).2 !! S i = Some t' →
  t' = (t + probing_time (nets (k + i)%nat) B
          + seconds Config.HEALTH_CHECK_INTERVAL)%N.
Proof.
  revert k st now i. induction n as [|n IH]; intros k st now i; [done|].
  rewrite health_check_task_starts. destruct i as [|i]; simpl.
  - intros [= <-] Hnext. apply health_check_task_first in Hnext as ->.
    by rewrite Nat.add_0_r, health_check_iteration_clock.
  - intros Ht Ht'. rewrite Nat.add_succ_r. by eapply (IH (S k)).
Qed.

Lemma cycle_start_gap_witness :
  10015%N
  = (0 + probing_time Scenario.net_all_up Config.BACKEND_SERVERS
       + seconds Config.HEALTH_CHECK_INTERVAL)%N.
Proof.
  apply (cycle_start_gap Config.BACKEND_SERVERS 2 (λ _, Scenario.net_all_up) 0
           Scenario.started 0%N 0 0%N 10015%N).
  - vm_compute. reflexivity.
  - vm_compute. reflexivity.
Defined.

(** * Further properties of [proxy] *)

Lemma proxy_calls_cases up request path st r :
  r ∈ upstream_calls (proxy up request path st) →
  ∃ target st',
    healthy_servers st ≠ [] ∧ select st = (Some target, st')
    ∧ r = build_upstream_request target request path.
Proof.
  unfold proxy. case_decide as Hne; simpl; [by intros ?%elem_of_nil|].
  destruct (select st) as [[target|] st'] eqn:Hsel;
    simpl; [|by intros ?%elem_of_nil].
  intros ->%list_elem_of_singleton. by exists target, st'.
Qed.

(** X1.  Whatever the outcome of a request, [proxy] leaves the healthy list
    as it found it (a backend whose call failed stays in rotation until a
    health check takes it out) and makes at most one upstream call. *)
Theorem proxy_keeps_healthy_list up request path st :
  healthy_servers (final (proxy up request path st)) = healthy_servers st
  ∧ length (upstream_calls (proxy up request path st)) ≤ 1.
Proof.
  split.
  - destruct (proxy_final up request path st) as [-> | ->]; [done|].
    apply select_healthy_servers.
  - unfold proxy. case_decide; simpl; [lia|].
    destruct (select st) as [[target|] st']; simpl; lia.
Qed.

(** X2.  [proxy] raises the 503 exception exactly when the healthy list is
    empty; a 503 status sent by a backend is relayed as a response and is
    not this exception. *)
Theorem proxy_503_iff_no_healthy up request path st detail :
  result (proxy up request path st) = HTTPException 503 detail
  ↔ healthy_servers st = []
    ∧ detail = "No healthy backend servers available.".
Proof.
  unfold proxy. case_decide as Hne; simpl.
  - split; [intros [= <-]; done|intros [_ ->]; done].
  - split; [|by intros [? _]].
    destruct (select st) as [[target|] st']; simpl; [|done].
    destruct (session_request up _); discriminate.
Qed.



(** X4.  [proxy] raises the 502 exception only when its upstream call
    raised a client error or a timeout, and the detail then carries the text
    of that error. *)
Theorem proxy_502_only_on_failure up request path st detail :
  result (proxy up request path st) = HTTPException 502 detail →
  ∃ r e,
    upstream_calls (proxy up request path st) = [r]
    ∧ (session_request up r = RaisedClientError e
       ∨ session_request up r = RaisedTimeoutError e)
    ∧ detail = "Bad Gateway or connection error: " ++ e.
Proof.
  unfold proxy. case_decide as Hne; simpl; [discriminate|].
  destruct (select st) as [[target|] st']; simpl; [|discriminate].
  destruct (session_request up (build_upstream_request target request path))
    as [status hs content|e|e] eqn:E; [discriminate|..];
    intros [= <-]; eexists _, e; eauto.
Qed.

Lemma proxy_502_only_on_failure_witness :
  ∃ r e,
    upstream_calls (proxy Scenario.up_refused Scenario.get_models "v1/models"
                      Scenario.started) = [r]
    ∧ (session_request Scenario.up_refused r = RaisedClientError e
       ∨ session_request Scenario.up_refused r = RaisedTimeoutError e)
    ∧ "Bad Gateway or connection error: Cannot connect to host localhost:8000"
      = "Bad Gateway or connection error: " ++ e.
Proof.
  apply (proxy_502_only_on_failure Scenario.up_refused Scenario.get_models
           "v1/models" Scenario.started).
  vm_compute. reflexivity.
Defined.

(** X5.  No header whose name is Host in any letter case is passed to the
    backend. *)
Theorem no_host_header_upstream up request path st r k v :
  r ∈ upstream_calls (proxy up request path st) →
  (k, v) ∈ u_headers r →
  lower k ≠ "host".
Proof.
  intros (target & st' & _ & _ & ->)%proxy_calls_cases Hk.
  apply (host_never_forwarded target request path).
  apply list_elem_of_fmap. by exists (k, v).
Qed.

Lemma no_host_header_upstream_witness : lower "authorization" ≠ "host".
Proof.
  apply (no_host_header_upstream Scenario.up_created Cases.post_chat
           "v1/chat/completions" Scenario.started
           (build_upstream_request "http://localhost:8000" Cases.post_chat
              "v1/chat/completions")
           "authorization" "Bearer t").
  - vm_compute. left.
  - vm_compute. right. left.
Defined.

(** X6.  No header named Transfer-Encoding or Connection, in any letter
    case, is among the headers of the response handed to the client. *)
Theorem no_hop_by_hop_relayed up request path st content status hs k v :
  result (proxy up request path st) = Response content status hs →
  (k, v) ∈ hs →
  lower k ≠ "transfer-encoding" ∧ lower k ≠ "connection".
Proof.
  unfold proxy. case_decide as Hne; simpl; [discriminate|].
  destruct (select st) as [[target|] st']; simpl; [|discriminate].
  destruct (session_request up _) as [status' hs' content'|e|e];
    [|discriminate..].
  intros [= _ _ <-] Hk. apply (hop_by_hop_never_relayed hs').
  apply list_elem_of_fmap. by exists (k, v).
Qed.

Lemma no_hop_by_hop_relayed_witness :
  lower "Content-Type" ≠ "transfer-encoding"
  ∧ lower "Content-Type" ≠ "connection".
Proof.
  apply (no_hop_by_hop_relayed Cases.up_internal_error Cases.post_chat
           "v1/chat/completions" Scenario.started
           (list_byte_of_string "{}") 500
           [("Content-Type", "application/json")]
           "Content-Type" "application/json").
  - vm_compute. reflexivity.
  - left.
Defined.

(** ** Which header lines survive the comprehensions *)

Lemma dict_setitem_keys_present k v d :
  k ∈ d.*1 → (dict_setitem k v d).*1 = d.*1.
Proof.
  induction d as [|[k' v'] d IH]; simpl; [by intros ?%elem_of_nil|].
  case_decide as E; simpl; [done|].
  rewrite elem_of_cons. intros [->|H]; [done|]. f_equal. by apply IH.
Qed.

Lemma dict_setitem_NoDup k v d : NoDup d.*1 → NoDup (dict_setitem k v d).*1.
Proof.
  intros Hd. destruct (decide (k ∈ d.*1)) as [Hin|Hout].
  - by rewrite dict_setitem_keys_present.
  - rewrite dict_setitem_fresh, fmap_app by done; simpl.
    apply NoDup_app. split; [done|]. split; [|apply NoDup_singleton].
    intros x Hx ->%list_elem_of_singleton. done.
Qed.

Lemma dict_setitem_elem k v d k' v' :
  NoDup d.*1 →
  (k', v') ∈ dict_setitem k v d
  ↔ (k' = k ∧ v' = v) ∨ (k' ≠ k ∧ (k', v') ∈ d).
Proof.
  induction d as [|[k0 v0] d IH]; simpl.
  - intros _. rewrite list_elem_of_singleton. split.
    + intros [= -> ->]. by left.
    + intros [[-> ->]|[_ H]]; [done|by apply elem_of_nil in H].
  - intros [Hk0 Hd]%NoDup_cons. specialize (IH Hd).
    assert (∀ w, (k0, w) ∉ d) as Hfresh.
    { intros w Hw. apply Hk0. apply list_elem_of_fmap. by exists (k0, w). }
    case_decide as E; rewrite !elem_of_cons.
    + subst k0. split.
      * intros [[= -> ->]|H]; [by left|]. right. split; [|by right].
        intros ->. by apply (Hfresh v').
      * intros [[-> ->]|[Hne [[= -> ->]|H]]]; [by left|done|by right].
    + rewrite IH. split.
      * intros [[= -> ->]|[[-> ->]|[Hne H]]].
        -- right. split; [done|by left].
        -- by left.
        -- right. split; [done|by right].
      * intros [[-> ->]|[Hne [[= -> ->]|H]]].
        -- right. by left.
        -- by left.
        -- right. right. done.
Qed.

Lemma dict_comprehension_snoc (keep : string → bool) (its : items) k v :
  dict_comprehension keep (its ++ [(k, v)])
  = if keep k then dict_setitem k v (dict_comprehension keep its)
    else dict_comprehension keep its.
Proof. unfold dict_comprehension. by rewrite foldl_snoc. Qed.

Lemma dict_comprehension_keys_NoDup (keep : string → bool) (its : items) :
  NoDup (dict_comprehension keep its).*1.
Proof.
  induction its as [|[k v] its IH] using rev_ind; [constructor|].
  rewrite dict_comprehension_snoc.
  destruct (keep k); [by apply dict_setitem_NoDup|done].
Qed.

Lemma last_value_snoc k (its : items) k0 v0 :
  last_value k (its ++ [(k0, v0)])
  = if decide (k0 = k) then Some v0 else last_value k its.
Proof.
  unfold last_value. rewrite filter_app.
  case_decide as E.
  - rewrite (filter_cons_True _ (k0, v0)) by done.
    by rewrite filter_nil, last_snoc.
  - rewrite (filter_cons_False _ (k0, v0)) by done.
    by rewrite filter_nil, app_nil_r.
Qed.

(** A pair is in the comprehension exactly when its name passes the
    condition and its value is that of the last line with this name. *)
Lemma dict_comprehension_elem (keep : string → bool) (its : items) k v :
  (k, v) ∈ dict_comprehension keep its
  ↔ keep k = true ∧ last_value k its = Some v.
Proof.
  induction its as [|[k0 v0] its IH] using rev_ind.
  - split; [by intros ?%elem_of_nil|by intros [_ ?]].
  - rewrite dict_comprehension_snoc, last_value_snoc.
    destruct (keep k0) eqn:Hkeep.
    + rewrite dict_setitem_elem by apply dict_comprehension_keys_NoDup.
      rewrite IH. case_decide as E.
      * subst k0. split.
        -- intros [[_ ->]|[? _]]; done.
        -- intros [_ [= ->]]. by left.
      * split.
        -- intros [[-> _]|[_ ?]]; done.
        -- intros ?. right. split; [congruence|done].
    + rewrite IH. case_decide as E; [|done].
      subst k0. split; intros [? _]; congruence.
Qed.

Lemma not_host_true k : not_host k = true ↔ lower k ≠ "host".
Proof.
  unfold not_host. by rewrite negb_true_iff, bool_decide_eq_false.
Qed.

Lemma not_hop_by_hop_true k :
  not_hop_by_hop k = true
  ↔ lower k ∉ ["transfer-encoding"; "connection"].
Proof.
  unfold not_hop_by_hop. by rewrite negb_true_iff, bool_decide_eq_false.
Qed.

(** X7.  When no header name occurs twice in the request, the backend
    receives every header line of the client except Host, in the client's
    order and with the client's spelling of the names. *)
Theorem distinct_request_headers_forwarded up request path st r :
  NoDup (headers request).*1 →
  r ∈ upstream_calls (proxy up request path st) →
  u_headers r = filter (λ kv, lower kv.1 ≠ "host") (headers request).
Proof.
  intros Hnd (target & st' & _ & _ & ->)%proxy_calls_cases.
  rewrite upstream_headers_distinct_names by done.
  apply list_filter_iff. intros [k v]; simpl. apply not_host_true.
Qed.

Lemma distinct_request_headers_forwarded_witness :
  u_headers (build_upstream_request "http://localhost:8000" Cases.post_chat
               "v1/chat/completions")
  = filter (λ kv, lower kv.1 ≠ "host") (headers Cases.post_chat).
Proof.
  apply (distinct_request_headers_forwarded Scenario.up_created
           Cases.post_chat "v1/chat/completions" Scenario.started).
  - refine (bool_decide_unpack (NoDup (headers Cases.post_chat).*1) _).
    vm_compute. exact I.
  - vm_compute. left.
Defined.



(** X9.  The headers passed to the backend hold each name once, and a pair
    is among them exactly when its name is not Host and its value is that
    of the last line of the request with this very name: of a repeated
    name only the last line goes upstream. *)
Theorem forwarded_header_is_last_line up request path st r :
  r ∈ upstream_calls (proxy up request path st) →
  NoDup (u_headers r).*1
  ∧ ∀ k v, (k, v) ∈ u_headers r
           ↔ lower k ≠ "host" ∧ last_value k (headers request) = Some v.
Proof.
  intros (target & st' & _ & _ & ->)%proxy_calls_cases. split.
  - apply dict_comprehension_keys_NoDup.
  - intros k v. simpl. by rewrite dict_comprehension_elem, not_host_true.
Qed.

Lemma forwarded_header_is_last_line_witness :
  let r := build_upstream_request "http://localhost:8000"
             Scenario.get_two_accepts "v1/models" in
  NoDup (u_headers r).*1
  ∧ ∀ k v, (k, v) ∈ u_headers r
           ↔ lower k ≠ "host"
             ∧ last_value k (headers Scenario.get_two_accepts) = Some v.
Proof.
  apply (forwarded_header_is_last_line Scenario.up_created
           Scenario.get_two_accepts "v1/models" Scenario.started).
  vm_compute. left.
Defined.

(** X10.  The headers handed to the client hold each name once, and a pair
    is among them exactly when its name is neither Transfer-Encoding nor
    Connection and its value is that of the last line of the backend's
    response with this very name. *)
Theorem relayed_header_is_last_line up request path st r status hs content :
  r ∈ upstream_calls (proxy up request path st) →
  session_request up r = Responded status hs content →
  ∃ relayed,
    result (proxy up request path st) = Response content status relayed
    ∧ NoDup relayed.*1
    ∧ ∀ k v, (k, v) ∈ relayed
             ↔ (lower k ∉ ["transfer-encoding"; "connection"])
               ∧ last_value k hs = Some v.
Proof.
  intros (target & st' & Hne & Hsel & ->)%proxy_calls_cases Hresp.
  destruct (proxy_forwards up request path st target st' Hne Hsel) as [_ Hr].
  rewrite Hresp in Hr. eexists. split; [exact Hr|]. split.
  - apply dict_comprehension_keys_NoDup.
  - intros k v. by rewrite dict_comprehension_elem, not_hop_by_hop_true.
Qed.

Lemma relayed_header_is_last_line_witness :
  ∃ relayed,
    result (proxy Scenario.up_two_cookies Scenario.get_models "login"
              Scenario.started)
    = Response (list_byte_of_string "ok") 200 relayed
    ∧ NoDup relayed.*1
    ∧ ∀ k v, (k, v) ∈ relayed
             ↔ (lower k ∉ ["transfer-encoding"; "connection"])
               ∧ last_value k
                   [("Content-Type", "text/plain");
                    ("Set-Cookie", "session=abc");
                    ("Set-Cookie", "theme=dark")] = Some v.
Proof.
  apply (relayed_header_is_last_line Scenario.up_two_cookies
           Scenario.get_models "login" Scenario.started
           (build_upstream_request "http://localhost:8000" Scenario.get_models
              "login")).
  - vm_compute. left.
  - vm_compute. reflexivity.
Defined.

(** * Further properties of the health checker *)

Lemma probe_pass_filter net servers now :
  (probe_pass net servers now).1
  = filter (λ s, outcome (probe net s) = Status 200) servers.
Proof.
  revert now. induction servers as [|server rest IH]; intros now; [done|].
  simpl. specialize (IH (now + elapsed (probe net server))%N).
  destruct (probe_pass net rest (now + elapsed (probe net server))%N)
    as [found t]; simpl in *.
  destruct (is_200 (outcome (probe net server))) eqn:E.
  - apply is_200_Status in E. by rewrite filter_cons_True, IH.
  - rewrite filter_cons_False, IH; [done|].
    intros Hs. apply is_200_Status in Hs. congruence.
Qed.

Lemma publish_publish new st : publish new (publish new st) = publish new st.
Proof.
  destruct (publish_cases new st) as [[_ E]|[_ E]]; rewrite E; [|done].
  destruct (publish_cases new
              {| healthy_servers := new; server_iterator := cycle_new |})
    as [[Hne _]|[_ E']]; [by simpl in Hne|done].
Qed.

Lemma elapsed_probe_le net server :
  (elapsed (probe net server) ≤ seconds Config.PROBE_TIMEOUT)%N.
Proof.
  unfold probe, session_get. case_decide; simpl; lia.
Qed.

Lemma probing_time_le net servers :
  (probing_time net servers
   ≤ N.of_nat (length servers) * seconds Config.PROBE_TIMEOUT)%N.
Proof.
  induction servers as [|server rest IH]; [done|].
  pose proof (elapsed_probe_le net server).
  change (probing_time net (server :: rest))
    with (elapsed (probe net server) + probing_time net rest)%N.
  rewrite length_cons, Nat2N.inj_succ. lia.
Qed.

(** X11.  In every reachable state the healthy list is a subsequence of the
    configured list: the round robin visits the healthy backends in the
    order of the configuration, and none twice when the configuration names
    none twice. *)
Theorem healthy_in_configuration_order B st :
  reachable B st →
  healthy_servers st `sublist_of` B
  ∧ (NoDup B → NoDup (healthy_servers st)).
Proof.
  intros Hr. pose proof (reachable_sublist B st Hr) as Hs.
  split; [done|]. intros HB. by eapply sublist_NoDup.
Qed.

Lemma healthy_in_configuration_order_witness :
  healthy_servers Scenario.started `sublist_of` Config.BACKEND_SERVERS
  ∧ (NoDup Config.BACKEND_SERVERS → NoDup (healthy_servers Scenario.started)).
Proof.
  apply (healthy_in_configuration_order Config.BACKEND_SERVERS
           Scenario.started).
  apply reachable_startup.
Defined.

(** X12.  The startup pass leaves exactly the configured backends whose
    probe returned 200 within the probe timeout, in configuration order,
    under a fresh iterator, so that the first request served goes to the
    first of them. *)
Theorem startup_healthy_list B net :
  let st := lifespan B net module_state in
  healthy_servers st = filter (λ s, outcome (probe net s) = Status 200) B
  ∧ server_iterator st = cycle_new
  ∧ (select st).1 = head (healthy_servers st).
Proof.
  simpl. split; [apply probe_pass_filter|]. split; [done|].
  destruct (select_spec (lifespan B net module_state)
              (coherent_cycle_new _)) as (-> & _).
  rewrite head_lookup. unfold cursor; simpl. by case_decide.
Qed.

(** X13.  [lifespan] extends the list it finds.  Run a second time in the
    same process it leaves every healthy backend listed twice, and a health
    check that finds the same backends up keeps the doubled list, since it
    compares sets. *)
Theorem second_startup_doubles B net :
  let found := healthy_servers (lifespan B net module_state) in
  let st2 := lifespan B net (lifespan B net module_state) in
  healthy_servers st2 = (found ++ found)%list
  ∧ health_check_cycle B net st2 = st2.
Proof.
  intros found st2. split; [done|].
  rewrite health_check_cycle_publish.
  destruct (publish_cases (probe_pass net B 0).1 st2) as [[Hne _]|[_ ->]];
    [|done].
  exfalso. apply Hne. change (healthy_servers st2) with (found ++ found)%list.
  rewrite list_to_set_app_L. change found with (probe_pass net B 0).1.
  by rewrite union_idemp_L.
Qed.

(** X14.  A health check is idempotent: a second cycle that meets the same
    network leaves the state, cursor included, as the first one left it. *)
Theorem health_check_idempotent B net st :
  health_check_cycle B net (health_check_cycle B net st)
  = health_check_cycle B net st.
Proof. rewrite !health_check_cycle_publish. apply publish_publish. Qed.

(** X15.  An iteration of the health-check loop started at [now] hands over
    to the next one no earlier than the interval after [now] and no later
    than the interval plus the probe timeout for each configured backend:
    a slow or dead backend delays the loop by at most two seconds. *)
Theorem health_check_iteration_duration B net st now :
  let next := (health_check_iteration B net st now).2 in
  (now + seconds Config.HEALTH_CHECK_INTERVAL ≤ next
   ∧ next ≤ now + seconds Config.HEALTH_CHECK_INTERVAL
             + N.of_nat (length B) * seconds Config.PROBE_TIMEOUT)%N.
Proof.
  simpl. rewrite health_check_iteration_clock.
  pose proof (probing_time_le net B). lia.
Qed.

(** X16.  After [n + 1] iterations of the loop the healthy list holds
    exactly the configured backends whose probe succeeded in the last
    iteration; what the earlier iterations and the state before them saw
    does not count. *)
Theorem loop_membership_last_iteration B n nets k st now s :
  s ∈ healthy_servers (health_check_task B (S n) nets k st now).1
  ↔ s ∈ B ∧ outcome (probe (nets (k + n)) s) = Status 200.
Proof.
  revert k st now. induction n as [|n IH]; intros k st now.
  - simpl.
    pose proof (health_check_iteration_state B (nets k) st now) as Hst.
    destruct (health_check_iteration B (nets k) st now) as [st' next].
    simpl in *. subst st'.
    rewrite Nat.add_0_r, publish_members. apply probe_pass_found.
  - specialize (IH (S k)).
    change (health_check_task B (S (S n)) nets k st now)
      with (let '(st', next) := health_check_iteration B (nets k) st now in
            let '(st'', starts) :=
              health_check_task B (S n) nets (S k) st' next in
            (st'', now :: starts)).
    destruct (health_check_iteration B (nets k) st now) as [st' next].
    specialize (IH st' next).
    destruct (health_check_task B (S n) nets (S k) st' next) as [st'' starts].
    simpl in IH |- *. by rewrite IH, Nat.add_succ_r.
Qed.

(** X23.  A backend whose health endpoint takes longer than the probe
    timeout to answer is left out of the healthy list, even if its answer
    would have been 200. *)
Theorem slow_backend_is_unhealthy B net st s :
  (seconds Config.PROBE_TIMEOUT < elapsed (net (s ++ "/health")))%N →
  s ∉ healthy_servers (health_check_cycle B net st).
Proof.
  intros Hslow. rewrite health_check_cycle_publish, publish_members.
  rewrite probe_pass_found. intros [_ H200].
  unfold probe, session_get in H200. by rewrite decide_True in H200.
Qed.

Lemma slow_backend_is_unhealthy_witness :
  "http://localhost:8002"
  ∉ healthy_servers
      (health_check_cycle Config.BACKEND_SERVERS Cases.net_second_only
         Scenario.started).
Proof.
  apply (slow_backend_is_unhealthy Config.BACKEND_SERVERS
           Cases.net_second_only Scenario.started "http://localhost:8002").
  vm_compute. reflexivity.
Defined.

(** X24.  A backend that has not delivered its whole response within the
    end-to-end timeout costs the client a 502: nothing of a late response
    is relayed, even if it would have been a 200. *)
Theorem slow_upstream_is_502 up request path st r :
  r ∈ upstream_calls (proxy up request path st) →
  (seconds Config.PROXY_TIMEOUT < took (up r))%N →
  ∃ detail, result (proxy up request path st) = HTTPException 502 detail.
Proof.
  intros (target & st' & Hne & Hsel & ->)%proxy_calls_cases Hslow.
  destruct (proxy_forwards up request path st target st' Hne Hsel) as [_ ->].
  rewrite session_request_timeout by done. by eexists.
Qed.

Lemma slow_upstream_is_502_witness :
  ∃ detail,
    result (proxy Cases.up_slow Scenario.get_models "v1/models"
              Scenario.started)
    = HTTPException 502 detail.
Proof.
  apply (slow_upstream_is_502 Cases.up_slow Scenario.get_models "v1/models"
           Scenario.started
           (build_upstream_request "http://localhost:8000" Scenario.get_models
              "v1/models")).
  - vm_compute. left.
  - vm_compute. reflexivity.
Defined.

(** * Further properties of the round robin *)

Lemma selections_add a b st :
  (selections (a + b) st).1
    = ((selections a st).1 ++ (selections b (selections a st).2).1)%list
  ∧ (selections (a + b) st).2 = (selections b (selections a st).2).2.
Proof.
  revert st. induction a as [|a IH]; intros st; simpl; [done|].
  destruct (select st) as [r st1]. specialize (IH st1).
  destruct (selections (a + b) st1) as [rs st2].
  destruct (selections a st1) as [rs1 st3]. simpl in *.
  destruct IH as [-> ->]. done.
Qed.

(** A full round brings the iterator back to the cursor it started at. *)
Lemma selections_round_state st :
  coherent st → healthy_servers st ≠ [] →
  let st' := (selections (length (healthy_servers st)) st).2 in
  coherent st' ∧ healthy_servers st' = healthy_servers st
  ∧ cursor st' = cursor st.
Proof.
  intros Hc Hne.
  destruct (selections_spec (length (healthy_servers st)) st Hc Hne)
    as (_ & Hc' & Hh & Hcur).
  simpl. split; [done|]. split; [done|]. rewrite Hcur.
  rewrite <-(Nat.mul_1_l (length (healthy_servers st))) at 1.
  rewrite Nat.Div0.mod_add. apply Nat.mod_small. by apply cursor_lt.
Qed.

Lemma selections_rounds m st :
  coherent st → healthy_servers st ≠ [] →
  (selections (m * length (healthy_servers st)) st).1
  = Some <$> concat (replicate m (rotate (cursor st) (healthy_servers st))).
Proof.
  revert st. induction m as [|m IH]; intros st Hc Hne; [done|].
  change (S m * length (healthy_servers st))
    with (length (healthy_servers st) + m * length (healthy_servers st)).
  destruct (selections_add (length (healthy_servers st))
              (m * length (healthy_servers st)) st) as [-> _].
  destruct (selections_round_state st Hc Hne) as (Hc' & Hh & Hcur).
  assert (healthy_servers (selections (length (healthy_servers st)) st).2 ≠ [])
    as Hne' by by rewrite Hh.
  pose proof (IH _ Hc' Hne') as IH'. rewrite Hh, Hcur in IH'.
  rewrite IH', selections_round by done.
  simpl. by rewrite fmap_app.
Qed.

Lemma count_NoDup (l : list string) s :
  NoDup l → s ∈ l → length (filter (λ x, x = s) l) = 1.
Proof.
  induction l as [|y l IH]; [by intros _ ?%elem_of_nil|].
  intros [Hy Hl]%NoDup_cons [->|Hin]%elem_of_cons.
  - rewrite filter_cons_True by done. simpl. f_equal.
    apply length_zero_iff_nil.
    destruct (filter (λ x, x = y) l) as [|z f] eqn:E; [done|].
    assert (z ∈ filter (λ x, x = y) l) as Hz by (rewrite E; by left).
    apply list_elem_of_filter in Hz as [-> ?]. done.
  - rewrite filter_cons_False by (intros ->; done). by apply IH.
Qed.

Lemma count_concat_replicate (P : string → Prop) `{!∀ x, Decision (P x)}
    m (l : list string) :
  length (filter P (concat (replicate m l))) = m * length (filter P l).
Proof.
  induction m as [|m IH]; [done|]. simpl.
  rewrite filter_app, length_app, IH. done.
Qed.

(** X17.  Over [m] full rounds with no publication in between, starting
    from any reachable state of a duplicate-free configuration, every
    healthy backend is selected exactly [m] times. *)
Theorem full_rounds_are_even B st m :
  NoDup B → reachable B st → healthy_servers st ≠ [] →
  ∃ l, (selections (m * length (healthy_servers st)) st).1 = Some <$> l
       ∧ ∀ s, s ∈ healthy_servers st → length (filter (λ x, x = s) l) = m.
Proof.
  intros HB Hr Hne. pose proof (reachable_coherent B st Hr) as Hc.
  eexists. split; [by apply selections_rounds|].
  intros s Hs. rewrite count_concat_replicate, count_NoDup; [lia|..].
  - rewrite rotate_Permutation.
    eapply sublist_NoDup; [done|by apply reachable_sublist].
  - by apply elem_of_rotate.
Qed.

Lemma full_rounds_are_even_witness :
  ∃ l, (selections (4 * length (healthy_servers Scenario.started))
          Scenario.started).1 = Some <$> l
       ∧ ∀ s, s ∈ healthy_servers Scenario.started →
              length (filter (λ x, x = s) l) = 4.
Proof.
  apply (full_rounds_are_even Config.BACKEND_SERVERS Scenario.started 4).
  - refine (bool_decide_unpack (NoDup Config.BACKEND_SERVERS) _).
    vm_compute. exact I.
  - apply reachable_startup.
  - vm_compute. discriminate.
Defined.

Lemma proxy_final_forward up request path st :
  healthy_servers st ≠ [] → final (proxy up request path st) = (select st).2.
Proof.
  intros Hne. unfold proxy. rewrite decide_False by done.
  by destruct (select st) as [[target|] st'].
Qed.

(** X18.  With at least two healthy backends, two requests handled one
    after the other with no publication in between are forwarded to two
    different backends. *)
Theorem consecutive_requests_alternate B st up1 request1 path1 up2 request2
    path2 :
  NoDup B → reachable B st → 2 ≤ length (healthy_servers st) →
  let run1 := proxy up1 request1 path1 st in
  let run2 := proxy up2 request2 path2 (final run1) in
  ∃ target1 target2,
    upstream_calls run1 = [build_upstream_request target1 request1 path1]
    ∧ upstream_calls run2 = [build_upstream_request target2 request2 path2]
    ∧ target1 ≠ target2.
Proof.
  intros HB Hr Hk run1 run2.
  pose proof (reachable_coherent B st Hr) as Hc.
  assert (healthy_servers st ≠ []) as Hne.
  { intros E. rewrite E in Hk. simpl in Hk. lia. }
  assert (NoDup (healthy_servers st)) as Hnd.
  { eapply sublist_NoDup; [done|by apply reachable_sublist]. }
  destruct (select_spec st Hc) as (Hsel1 & Hc1 & Hcur1).
  specialize (Hcur1 Hne).
  pose proof (select_healthy_servers st) as Hh1.
  pose proof (cursor_lt st Hc Hne) as Hlt.
  assert (final run1 = (select st).2) as Hfin
    by by apply proxy_final_forward.
  destruct (select st) as [r1 st1] eqn:E1. simpl in *.
  assert (healthy_servers st1 ≠ []) as Hne1 by by rewrite Hh1.
  destruct (select_spec st1 Hc1) as (Hsel2 & _ & _).
  destruct (select st1) as [r2 st2] eqn:E2. simpl in *.
  rewrite Hh1, Hcur1 in Hsel2.
  destruct (lookup_lt_is_Some_2 (healthy_servers st) (cursor st) Hlt)
    as [target1 Ht1].
  destruct (lookup_lt_is_Some_2 (healthy_servers st)
              ((cursor st + 1) `mod` length (healthy_servers st)))
    as [target2 Ht2]; [apply Nat.mod_upper_bound; lia|].
  rewrite Ht1 in Hsel1. rewrite Ht2 in Hsel2. subst r1 r2.
  exists target1, target2.
  split; [by apply (proxy_forwards up1 request1 path1 st target1 st1)|].
  split.
  - unfold run2. rewrite Hfin.
    by apply (proxy_forwards up2 request2 path2 st1 target2 st2).
  - intros <-.
    pose proof (NoDup_lookup _ _ _ _ Hnd Ht1 Ht2) as Hidx.
    destruct (decide (cursor st + 1 < length (healthy_servers st))).
    + rewrite Nat.mod_small in Hidx by done. lia.
    + replace (cursor st + 1) with (length (healthy_servers st)) in Hidx
        by lia.
      rewrite Nat.Div0.mod_same in Hidx. lia.
Qed.

Lemma consecutive_requests_alternate_witness :
  ∃ target1 target2,
    upstream_calls
      (proxy Scenario.up_created Scenario.get_models "v1/models"
         Scenario.started)
    = [build_upstream_request target1 Scenario.get_models "v1/models"]
    ∧ upstream_calls
        (proxy Scenario.up_refused Cases.post_chat "v1/chat/completions"
           (final (proxy Scenario.up_created Scenario.get_models "v1/models"
                     Scenario.started)))
      = [build_upstream_request target2 Cases.post_chat "v1/chat/completions"]
    ∧ target1 ≠ target2.
Proof.
  apply (consecutive_requests_alternate Config.BACKEND_SERVERS
           Scenario.started Scenario.up_created Scenario.get_models
           "v1/models" Scenario.up_refused Cases.post_chat
           "v1/chat/completions").
  - refine (bool_decide_unpack (NoDup Config.BACKEND_SERVERS) _).
    vm_compute. exact I.
  - apply reachable_startup.
  - vm_compute. lia.
Defined.

(** * Properties of the server node *)

Section NodeFacts.

Context {float : Type}.
Implicit Types (g : Node.globals (float := float))
  (request : Node.ChatCompletionRequest (float := float)).


(** X20.  With model and tokenizer loaded, a request with an empty message
    list is not answered: reading its last message raises IndexError. *)
Theorem chat_empty_messages_raises g now request m t :
  Node.model g = Some m → Node.tokenizer g = Some t →
  Node.vocab_len t ≠ 0%N →
  Node.messages request = [] →
  Node.create_chat_completion g now request = Node.Raised_IndexError.
Proof.
  intros Hm Ht Hlen Hmsgs. unfold Node.create_chat_completion.
  rewrite Hm, Ht, Hmsgs; simpl.
  by destruct (N.eqb_spec (Node.vocab_len t) 0).
Qed.

(** X21.  The answer depends on the conversation only through the content
    of its last message: two requests that agree on it, on the model name
    and on the two generation settings get the same outcome, whatever the
    earlier messages and the role of the last one are. *)
Theorem chat_uses_last_content_only g now request1 request2 :
  Node.content <$> last (Node.messages request1)
    = Node.content <$> last (Node.messages request2) →
  Node.req_model request1 = Node.req_model request2 →
  Node.max_tokens request1 = Node.max_tokens request2 →
  Node.temperature request1 = Node.temperature request2 →
  Node.create_chat_completion g now request1
  = Node.create_chat_completion g now request2.
Proof.
  intros Hlast Hmodel Hmax Htemp. unfold Node.create_chat_completion.
  destruct (negb _ || negb _); [done|].
  destruct (Node.model g) as [m|]; [|done].
  destruct (Node.tokenizer g) as [t|]; [|done].
  rewrite Hmodel, Hmax, Htemp.
  destruct (last (Node.messages request1)) as [msg1|],
           (last (Node.messages request2)) as [msg2|];
    simpl in Hlast; try done.
  injection Hlast as ->. done.
Qed.

(** X22.  A startup that does not raise leaves in the globals the model
    and the tokenizer that the hub returned for the model name, and from
    then on, with a tokenizer of non-zero length, no request is answered
    with an HTTP exception. *)
Theorem loaded_node_never_503 (h : Node.hub (float := float)) name g g' now
    request status detail :
  Node.lifespan h name g = (g', None) →
  (∀ t, Node.tokenizer_from_pretrained h name = Node.Loaded t →
        Node.vocab_len t ≠ 0%N) →
  (∃ m t,
     Node.model_from_pretrained h name = Node.Loaded m
     ∧ Node.tokenizer_from_pretrained h name = Node.Loaded t
     ∧ g' = {| Node.model := Some m; Node.tokenizer := Some t |})
  ∧ Node.create_chat_completion g' now request
    ≠ Node.Raised_HTTPException status detail.
Proof.
  unfold Node.lifespan. intros Hl Hlen.
  destruct (Node.tokenizer_from_pretrained h name) as [t|e]; [|done].
  destruct (Node.model_from_pretrained h name) as [m|e]; [|done].
  injection Hl as <-. split; [by exists m, t|].
  unfold Node.create_chat_completion; simpl.
  destruct (N.eqb_spec (Node.vocab_len t) 0) as [E|E]; [by destruct (Hlen t)|].
  simpl. destruct (last (Node.messages request)); [|done].
  by destruct (_ !! 0).
Qed.

End NodeFacts.

Lemma chat_empty_messages_raises_witness :
  Node.create_chat_completion NodeCases.loaded 1700000000 (NodeCases.ask [])
  = Node.Raised_IndexError.
Proof.
  apply (chat_empty_messages_raises NodeCases.loaded 1700000000%Z
           (NodeCases.ask []) NodeCases.toy_model NodeCases.toy_tokenizer).
  - reflexivity.
  - reflexivity.
  - vm_compute. discriminate.
  - reflexivity.
Defined.

Lemma chat_uses_last_content_only_witness :
  Node.create_chat_completion NodeCases.loaded 1700000000
    (NodeCases.ask [NodeCases.earlier; NodeCases.hi])
  = Node.create_chat_completion NodeCases.loaded 1700000000
      (NodeCases.ask [NodeCases.hi_from_system]).
Proof.
  apply (chat_uses_last_content_only NodeCases.loaded 1700000000%Z
           (NodeCases.ask [NodeCases.earlier; NodeCases.hi])
           (NodeCases.ask [NodeCases.hi_from_system]));
    reflexivity.
Defined.

Lemma loaded_node_never_503_witness :
  (∃ m t,
     Node.model_from_pretrained NodeCases.toy_hub "gpt2" = Node.Loaded m
     ∧ Node.tokenizer_from_pretrained NodeCases.toy_hub "gpt2" = Node.Loaded t
     ∧ NodeCases.loaded = {| Node.model := Some m; Node.tokenizer := Some t |})
  ∧ Node.create_chat_completion NodeCases.loaded 1700000000
      (NodeCases.ask [NodeCases.hi])
    ≠ Node.Raised_HTTPException 503 "Model not loaded".
Proof.
  apply (loaded_node_never_503 NodeCases.toy_hub "gpt2" Node.module_globals
           NodeCases.loaded 1700000000%Z (NodeCases.ask [NodeCases.hi])
           503%Z "Model not loaded").
  - reflexivity.
  - intros t [= <-]. vm_compute. discriminate.
Defined.
